(** * Squeal: the destructor-constant bridge of [Squeal.h] and [Squeal-iOS.h]

    Both umbrella headers declare two version symbols and then define

      typedef void ( *squeal_destructor_type)(void* );
      const squeal_destructor_type SQUEAL_STATIC    = ((squeal_destructor_type)0);
      const squeal_destructor_type SQUEAL_TRANSIENT = ((squeal_destructor_type)-1);

    A function pointer is modelled by its address, an unsigned integer of the
    target's pointer width [w]; an [int] by its 32-bit two's complement
    pattern (the width of [int] on every ABI Foundation is built for). *)

From Stdlib Require Import ZArith Lia List Bool String.
Import ListNotations.
Local Open Scope Z_scope.

(** ** The C arithmetic the two initialisers use *)

Module CInt.

(** Width of [int] in bits. *)
Definition int_bits : Z := 32.

(** An integer literal of type [int], as its bit pattern. *)
Definition int_const (n : Z) : Z := Z.land n (Z.ones int_bits).

(** Unary minus on [int]: two's complement negation, wrapping at [int_bits]. *)
Definition int_neg (x : Z) : Z := Z.land (Z.lnot x + 1) (Z.ones int_bits).

(** The number a signed [int] pattern stands for. *)
Definition int_signed (x : Z) : Z :=
  if Z.testbit x (int_bits - 1) then x - 2 ^ int_bits else x.

(** The cast of an [int] to a pointer of [w] bits: the high bits are dropped
    when the pointer is not wider than [int], and the sign bit is replicated
    into the new high bits when it is wider. *)
Definition int_to_ptr (w : Z) (x : Z) : Z :=
  if w <=? int_bits then Z.land x (Z.ones w)
  else if Z.testbit x (int_bits - 1)
       then Z.lor x (Z.shiftl (Z.ones (w - int_bits)) int_bits)
       else x.

(** Width of [double] in bits: IEEE 754 binary64. *)
Definition double_bits : Z := 64.

(** The conversion of an [int] to [double], as the binary64 pattern: sign,
    biased exponent and the 52 fraction bits below the leading one.  An
    [int] has at most 31 significant bits, so no rounding takes place. *)
Definition double_of_int (x : Z) : Z :=
  let n := int_signed x in
  if n =? 0 then 0
  else
    let a := Z.abs n in
    let e := Z.log2 a in
    (if n <? 0 then 2 ^ 63 else 0)
    + (e + 1023) * 2 ^ 52
    + (a * 2 ^ (52 - e) - 2 ^ 52).

(** The conversion of a [double] back to [int], the fraction dropped, for a
    pattern whose number an [int] can hold. *)
Definition int_of_double (b : Z) : Z :=
  let e := (b / 2 ^ 52) mod 2 ^ 11 in
  let a := Z.shiftl (2 ^ 52 + b mod 2 ^ 52) (e - 1075) in
  if e =? 0 then 0
  else if b / 2 ^ 63 =? 0 then a else - a.

(** The null pointer: the all-zero address. *)
Definition null_pointer : Z := 0.

(** [p == q] on pointers. *)
Definition ptr_eqb (p q : Z) : bool := p =? q.

End CInt.

(** ** The declarations of a header, as written *)

Module CSyntax.

Inductive ctype : Type :=
| Tvoid
| Tint
| Tdouble
| Tuchar
| Tconst (t : ctype)
| Tpointer (t : ctype)
| Tfunction (param ret : ctype)
| Tarray (t : ctype)
| Tnamed (name : string).

Inductive expr : Type :=
| Econst (n : Z)
| Eneg (e : expr)
| Ecast (t : ctype) (e : expr)
| Evar (name : string)
| Ecall (f arg : expr).

Inductive decl : Type :=
| Dextern (name : string) (t : ctype)
| Dtypedef (name : string) (t : ctype)
| Dconst (name : string) (t : ctype) (init : expr).

(** The values the declared objects hold. *)
Inductive cval : Type :=
| Vint (bits : Z)
| Vptr (addr : Z)
| Vdouble (bits : Z)
| Vbytes (bs : list Byte.byte).

(** The typedef names in scope after a list of declarations. *)
Fixpoint typedefs (ds : list decl) : list (string * ctype) :=
  match ds with
  | [] => []
  | Dtypedef name t :: ds' => (name, t) :: typedefs ds'
  | _ :: ds' => typedefs ds'
  end.

Fixpoint lookup {A : Type} (name : string) (l : list (string * A)) : option A :=
  match l with
  | [] => None
  | (k, v) :: l' => if String.eqb name k then Some v else lookup name l'
  end.

(** A type with its typedef name, if it is one, replaced by what it names. *)
Definition resolve (tds : list (string * ctype)) (t : ctype) : option ctype :=
  match t with
  | Tnamed name => lookup name tds
  | _ => Some t
  end.

(** Evaluation of an initialiser for pointers of [w] bits.  An object of
    static storage duration takes a constant expression: an identifier or a
    call is not one. *)
Fixpoint eval_init (w : Z) (tds : list (string * ctype)) (e : expr)
  : option cval :=
  match e with
  | Econst n => Some (Vint (CInt.int_const n))
  | Eneg e1 =>
      match eval_init w tds e1 with
      | Some (Vint x) => Some (Vint (CInt.int_neg x))
      | _ => None
      end
  | Ecast t e1 =>
      match resolve tds t, eval_init w tds e1 with
      | Some (Tpointer _), Some (Vint x) => Some (Vptr (CInt.int_to_ptr w x))
      | Some (Tpointer _), Some (Vptr a) => Some (Vptr a)
      | Some Tint, Some (Vint x) => Some (Vint x)
      | _, _ => None
      end
  | Evar _ => None
  | Ecall _ _ => None
  end.

(** The objects a header defines, with their initial values; [None] when an
    initialiser is not a constant expression. *)
Fixpoint elaborate (w : Z) (tds : list (string * ctype)) (ds : list decl)
  : option (list (string * cval)) :=
  match ds with
  | [] => Some []
  | Dconst name _ init :: ds' =>
      match eval_init w tds init, elaborate w tds ds' with
      | Some v, Some env => Some ((name, v) :: env)
      | _, _ => None
      end
  | Dtypedef name t :: ds' => elaborate w (tds ++ [(name, t)]) ds'
  | Dextern _ _ :: ds' => elaborate w tds ds'
  end.

(** The callee of every call expression inside [e]. *)
Fixpoint calls (e : expr) : list expr :=
  match e with
  | Econst _ => []
  | Eneg e1 => calls e1
  | Ecast _ e1 => calls e1
  | Evar _ => []
  | Ecall f arg => f :: calls f ++ calls arg
  end.

Definition decl_calls (d : decl) : list expr :=
  match d with
  | Dconst _ _ init => calls init
  | _ => []
  end.

Definition header_calls (ds : list decl) : list expr :=
  flat_map decl_calls ds.

(** The identifiers an expression mentions. *)
Fixpoint mentions (e : expr) : list string :=
  match e with
  | Econst _ => []
  | Eneg e1 => mentions e1
  | Ecast _ e1 => mentions e1
  | Evar name => [name]
  | Ecall f arg => mentions f ++ mentions arg
  end.

Definition decl_mentions (d : decl) : list string :=
  match d with
  | Dconst _ _ init => mentions init
  | _ => []
  end.

(** Whether a declared type is [const]-qualified; an array is what its
    elements are. *)
Fixpoint declared_const (t : ctype) : bool :=
  match t with
  | Tconst _ => true
  | Tarray t' => declared_const t'
  | _ => false
  end.

(** The type a header declares an object with. *)
Fixpoint declared_type (name : string) (ds : list decl) : option ctype :=
  match ds with
  | [] => None
  | Dextern n t :: ds' =>
      if String.eqb name n then Some t else declared_type name ds'
  | Dconst n t _ :: ds' =>
      if String.eqb name n then Some t else declared_type name ds'
  | Dtypedef _ _ :: ds' => declared_type name ds'
  end.

End CSyntax.

(** ** The two headers *)

(** [Squeal/Squeal.h]. *)
Module Squeal.
Import CInt CSyntax.

(** Lines 4, 7 and 15-17 of the header. *)
Definition declarations : list decl :=
  [ Dextern "SquealVersionNumber" Tdouble;
    Dextern "SquealVersionString" (Tarray (Tconst Tuchar));
    Dtypedef "squeal_destructor_type"
             (Tpointer (Tfunction (Tpointer Tvoid) Tvoid));
    Dconst "SQUEAL_STATIC" (Tconst (Tnamed "squeal_destructor_type"))
           (Ecast (Tnamed "squeal_destructor_type") (Econst 0));
    Dconst "SQUEAL_TRANSIENT" (Tconst (Tnamed "squeal_destructor_type"))
           (Ecast (Tnamed "squeal_destructor_type") (Eneg (Econst 1))) ].

(** [typedef void ( *squeal_destructor_type)(void* )]: an address. *)
Definition squeal_destructor_type : Type := Z.

Definition SQUEAL_STATIC (w : Z) : squeal_destructor_type :=
  int_to_ptr w (int_const 0).

Definition SQUEAL_TRANSIENT (w : Z) : squeal_destructor_type :=
  int_to_ptr w (int_neg (int_const 1)).

End Squeal.

(** [Squeal-iOS/Squeal.h]. *)
Module Squeal_iOS.
Import CInt CSyntax.

(** Lines 12, 15 and 23-25 of the header. *)
Definition declarations : list decl :=
  [ Dextern "Squeal_iOSVersionNumber" Tdouble;
    Dextern "Squeal_iOSVersionString" (Tarray (Tconst Tuchar));
    Dtypedef "squeal_destructor_type"
             (Tpointer (Tfunction (Tpointer Tvoid) Tvoid));
    Dconst "SQUEAL_STATIC" (Tconst (Tnamed "squeal_destructor_type"))
           (Ecast (Tnamed "squeal_destructor_type") (Econst 0));
    Dconst "SQUEAL_TRANSIENT" (Tconst (Tnamed "squeal_destructor_type"))
           (Ecast (Tnamed "squeal_destructor_type") (Eneg (Econst 1))) ].

Definition squeal_destructor_type : Type := Z.

Definition SQUEAL_STATIC (w : Z) : squeal_destructor_type :=
  int_to_ptr w (int_const 0).

Definition SQUEAL_TRANSIENT (w : Z) : squeal_destructor_type :=
  int_to_ptr w (int_neg (int_const 1)).

End Squeal_iOS.

(** The header a translation unit imports. *)
Inductive header : Type := Squeal_h | Squeal_iOS_h.

Definition declarations_of (h : header) : list CSyntax.decl :=
  match h with
  | Squeal_h => Squeal.declarations
  | Squeal_iOS_h => Squeal_iOS.declarations
  end.

Definition static_of (h : header) (w : Z) : Z :=
  match h with
  | Squeal_h => Squeal.SQUEAL_STATIC w
  | Squeal_iOS_h => Squeal_iOS.SQUEAL_STATIC w
  end.

Definition transient_of (h : header) (w : Z) : Z :=
  match h with
  | Squeal_h => Squeal.SQUEAL_TRANSIENT w
  | Squeal_iOS_h => Squeal_iOS.SQUEAL_TRANSIENT w
  end.

(** What a header gives the binding layer: the typedef and the two objects
    defined under the names [SQUEAL_STATIC] and [SQUEAL_TRANSIENT]. *)
Record bridge : Type := {
  br_typedef : option CSyntax.ctype;
  br_static : option CSyntax.cval;
  br_transient : option CSyntax.cval
}.

Definition bridge_of (w : Z) (ds : list CSyntax.decl) : bridge :=
  let env := match CSyntax.elaborate w [] ds with
             | Some env => env
             | None => []
             end in
  {| br_typedef := CSyntax.lookup "squeal_destructor_type" (CSyntax.typedefs ds);
     br_static := CSyntax.lookup "SQUEAL_STATIC" env;
     br_transient := CSyntax.lookup "SQUEAL_TRANSIENT" env |}.

(** ** A process that has loaded a header

    The four objects of static storage duration a header declares.  The
    version symbols are [extern]: their values come from the generated
    version file of the framework, which is not part of the headers, and are
    taken as given.  [VersionNumber] stands for [SquealVersionNumber] or
    [Squeal_iOSVersionNumber], [VersionString] for [SquealVersionString] or
    [Squeal_iOSVersionString]. *)

Module Process.
Import CSyntax.

Inductive object : Type :=
| VersionNumber
| VersionString
| STATIC
| TRANSIENT.

(** The [const] qualifier of each declaration: only the [double] version
    number is declared without it. *)
Definition is_const (o : object) : bool :=
  match o with
  | VersionNumber => false
  | VersionString => true
  | STATIC => true
  | TRANSIENT => true
  end.

Definition is_sentinel (o : object) : bool :=
  match o with
  | STATIC | TRANSIENT => true
  | _ => false
  end.

Record memory : Type := {
  mem_VersionNumber : Z;
  mem_VersionString : list Byte.byte;
  mem_STATIC : Z;
  mem_TRANSIENT : Z
}.

(** Memory at program start: the initialisers of the header, and the
    version symbols as the framework was built with them. *)
Definition initial_memory (h : header) (w : Z)
  (vn : Z) (vs : list Byte.byte) : memory :=
  {| mem_VersionNumber := vn;
     mem_VersionString := vs;
     mem_STATIC := static_of h w;
     mem_TRANSIENT := transient_of h w |}.

Inductive access : Type :=
| Load (o : object)
| Store (o : object) (v : cval).

Definition load (m : memory) (o : object) : cval :=
  match o with
  | VersionNumber => Vdouble (mem_VersionNumber m)
  | VersionString => Vbytes (mem_VersionString m)
  | STATIC => Vptr (mem_STATIC m)
  | TRANSIENT => Vptr (mem_TRANSIENT m)
  end.

(** The memory with a new version number. *)
Definition set_VersionNumber (m : memory) (b : Z) : memory :=
  {| mem_VersionNumber := b;
     mem_VersionString := mem_VersionString m;
     mem_STATIC := mem_STATIC m;
     mem_TRANSIENT := mem_TRANSIENT m |}.

(** An assignment needs a modifiable lvalue: a [const] object takes none.
    The version number takes an arithmetic value, converted to [double]: a
    [double] as it is, an [int] through [double_of_int].  A pointer or an
    array is not assignable to a [double], and a pattern wider than
    [double_bits] is no [double]. *)
Definition store (m : memory) (o : object) (v : cval) : option memory :=
  if is_const o then None
  else match o, v with
       | VersionNumber, Vdouble b =>
           if (0 <=? b) && (b <? 2 ^ CInt.double_bits)
           then Some (set_VersionNumber m b)
           else None
       | VersionNumber, Vint x =>
           Some (set_VersionNumber m (CInt.double_of_int (CInt.int_const x)))
       | _, _ => None
       end.

(** One access: the memory after it and the value it read, if it is a load. *)
Definition step (m : memory) (a : access) : option (memory * list (object * cval)) :=
  match a with
  | Load o => Some (m, [(o, load m o)])
  | Store o v =>
      match store m o v with
      | Some m' => Some (m', [])
      | None => None
      end
  end.

(** A sequence of accesses: the final memory and every value read, in order. *)
Fixpoint run (m : memory) (p : list access)
  : option (memory * list (object * cval)) :=
  match p with
  | [] => Some (m, [])
  | a :: p' =>
      match step m a with
      | None => None
      | Some (m1, r) =>
          match run m1 p' with
          | None => None
          | Some (m2, rs) => Some (m2, r ++ rs)
          end
      end
  end.

(** Every two reads of one sentinel gave the same value. *)
Definition reads_agree (rs : list (object * cval)) : Prop :=
  forall o v1 v2,
    is_sentinel o = true -> In (o, v1) rs -> In (o, v2) rs -> v1 = v2.

(** The reads of the two sentinels among [rs]. *)
Definition sentinel_reads (rs : list (object * cval)) : list (object * cval) :=
  filter (fun r => is_sentinel (fst r)) rs.

(** What a run shows of the sentinels: their final values and their reads. *)
Definition sentinel_view (res : option (memory * list (object * cval)))
  : option (Z * Z * list (object * cval)) :=
  match res with
  | Some (m, rs) => Some (mem_STATIC m, mem_TRANSIENT m, sentinel_reads rs)
  | None => None
  end.

(** The name each header declares an object under. *)
Definition object_name (h : header) (o : object) : string :=
  match h, o with
  | Squeal_h, VersionNumber => "SquealVersionNumber"
  | Squeal_h, VersionString => "SquealVersionString"
  | Squeal_iOS_h, VersionNumber => "Squeal_iOSVersionNumber"
  | Squeal_iOS_h, VersionString => "Squeal_iOSVersionString"
  | _, STATIC => "SQUEAL_STATIC"
  | _, TRANSIENT => "SQUEAL_TRANSIENT"
  end.

(** The value a header gives an object it defines, for pointers of [w]
    bits: [None] for an object it only declares, or if an initialiser could
    not be evaluated. *)
Definition defined_value (h : header) (w : Z) (o : object) : option cval :=
  match elaborate w [] (declarations_of h) with
  | Some env => lookup (object_name h o) env
  | None => None
  end.

End Process.

(** ** Threads of a process

    The accesses of several threads, in the order they take effect.  The
    headers offer no lock and no atomic object, so nothing orders the
    accesses of two threads: two of them race when they are to one object
    and one of them is a store. *)

Module Threads.
Import CSyntax Process.

Definition thread : Type := nat.

Definition execution : Type := list (thread * access).

Definition target (a : access) : object :=
  match a with
  | Load o => o
  | Store o _ => o
  end.

Definition is_write (a : access) : bool :=
  match a with
  | Load _ => false
  | Store _ _ => true
  end.

Definition conflict (a b : access) : Prop :=
  target a = target b /\ (is_write a = true \/ is_write b = true).

(** Two threads race on [o] in [e]. *)
Definition data_race_on (o : object) (e : execution) : Prop :=
  exists t1 a1 t2 a2,
    In (t1, a1) e /\ In (t2, a2) e /\ t1 <> t2 /\
    target a1 = o /\ conflict a1 a2.

(** The accesses of an execution, one after the other on the shared memory:
    the final memory and what each thread read. *)
Fixpoint run_threads (m : memory) (e : execution)
  : option (memory * list (thread * object * cval)) :=
  match e with
  | [] => Some (m, [])
  | (t, a) :: e' =>
      match step m a with
      | None => None
      | Some (m1, r) =>
          match run_threads m1 e' with
          | None => None
          | Some (m2, rs) =>
              Some (m2, map (fun x => (t, fst x, snd x)) r ++ rs)
          end
      end
  end.

End Threads.

(** ** Facts about the casts *)

Section CastFacts.
Import CInt.

Lemma int_neg_1 : int_neg (int_const 1) = Z.ones int_bits.
Proof. reflexivity. Qed.

Lemma int_signed_neg_1 : int_signed (int_neg (int_const 1)) = -1.
Proof. reflexivity. Qed.

Lemma int_to_ptr_0 (w : Z) : int_to_ptr w 0 = 0.
Proof.
  unfold int_to_ptr.
  destruct (w <=? int_bits); [apply Z.land_0_l|].
  rewrite Z.testbit_0_l. reflexivity.
Qed.

(** Truncating or sign-extending the all-ones [int] gives all ones. *)
Lemma int_to_ptr_ones (w : Z) :
  0 <= w -> int_to_ptr w (Z.ones int_bits) = Z.ones w.
Proof.
  intros Hw. unfold int_to_ptr.
  destruct (Z.leb_spec w int_bits) as [Hle|Hgt].
  - apply Z.bits_inj'. intros i Hi.
    rewrite Z.land_spec.
    destruct (Z.ltb_spec i w) as [Hlt|Hge].
    + rewrite !Z.ones_spec_low by (unfold int_bits in *; lia). reflexivity.
    + rewrite (Z.ones_spec_high w) by lia. apply andb_false_r.
  - replace (Z.testbit (Z.ones int_bits) (int_bits - 1)) with true
      by reflexivity.
    apply Z.bits_inj'. intros i Hi.
    rewrite Z.lor_spec, Z.shiftl_spec by lia.
    destruct (Z.ltb_spec i int_bits) as [Hlo|Hhi].
    + rewrite Z.ones_spec_low by lia.
      rewrite (Z.ones_spec_low w) by lia. reflexivity.
    + rewrite (Z.ones_spec_high int_bits) by (unfold int_bits in *; lia).
      destruct (Z.ltb_spec i w) as [Hlt|Hge].
      * rewrite !Z.ones_spec_low by lia. reflexivity.
      * rewrite !Z.ones_spec_high by (unfold int_bits in *; lia).
        reflexivity.
Qed.

(** The cast keeps the number the [int] stands for, modulo [2 ^ w]. *)
Lemma int_to_ptr_signed (w x : Z) :
  0 <= w -> 0 <= x < 2 ^ int_bits ->
  int_to_ptr w x = int_signed x mod 2 ^ w.
Proof.
  intros Hw Hx. unfold int_to_ptr, int_signed.
  assert (Hp : 0 < 2 ^ w) by (apply Z.pow_pos_nonneg; lia).
  destruct (Z.leb_spec w int_bits) as [Hle|Hgt].
  - rewrite Z.land_ones by lia.
    destruct (Z.testbit x (int_bits - 1)); [|reflexivity].
    replace (2 ^ int_bits) with (2 ^ (int_bits - w) * 2 ^ w)
      by (rewrite <- Z.pow_add_r by lia; f_equal; lia).
    replace (x - 2 ^ (int_bits - w) * 2 ^ w)
      with (x + - 2 ^ (int_bits - w) * 2 ^ w) by ring.
    rewrite Z.mod_add by lia. reflexivity.
  - assert (Hlt : 2 ^ int_bits < 2 ^ w) by (apply Z.pow_lt_mono_r; unfold int_bits in *; lia).
    destruct (Z.testbit x (int_bits - 1)) eqn:Hs.
    + assert (Hhi : 2 ^ (int_bits - 1) <= x).
      { destruct (Z.lt_ge_cases x (2 ^ (int_bits - 1))) as [Hc|Hc]; [|exact Hc].
        destruct (Z.eq_dec x 0) as [->|Hnz]; [rewrite Z.testbit_0_l in Hs; discriminate|].
        rewrite Z.bits_above_log2 in Hs; [discriminate|lia|].
        apply Z.log2_lt_pow2; lia. }
      assert (Hd : Z.land x (Z.shiftl (Z.ones (w - int_bits)) int_bits) = 0).
      { apply Z.bits_inj'. intros i Hi.
        rewrite Z.land_spec, Z.shiftl_spec, Z.bits_0 by lia.
        destruct (Z.ltb_spec i int_bits) as [Hlo|Hge].
        - rewrite (Z.testbit_neg_r _ (i - int_bits)) by lia. apply andb_false_r.
        - destruct (Z.eq_dec x 0) as [->|Hnz]; [rewrite Z.testbit_0_l; reflexivity|].
          rewrite Z.bits_above_log2; [reflexivity|lia|].
          apply Z.lt_le_trans with int_bits; [|lia].
          apply Z.log2_lt_pow2; lia. }
      rewrite <- Z.lxor_lor, <- Z.add_nocarry_lxor by exact Hd.
      rewrite Z.shiftl_mul_pow2 by (unfold int_bits; lia).
      rewrite Z.ones_equiv, <- Z.sub_1_r, Z.mul_sub_distr_r.
      rewrite <- Z.pow_add_r by (unfold int_bits in *; lia).
      replace (w - int_bits + int_bits) with w by lia.
      symmetry. rewrite <- (Z.mod_add _ 1) by lia.
      rewrite Z.mod_small; lia.
    + symmetry. apply Z.mod_small. lia.
Qed.

Lemma static_of_eq (h : header) (w : Z) : static_of h w = 0.
Proof. destruct h; apply int_to_ptr_0. Qed.

Lemma transient_of_eq (h : header) (w : Z) :
  0 <= w -> transient_of h w = Z.ones w.
Proof.
  intros Hw.
  destruct h; cbn [transient_of];
    unfold Squeal.SQUEAL_TRANSIENT, Squeal_iOS.SQUEAL_TRANSIENT;
    rewrite int_neg_1; apply int_to_ptr_ones; exact Hw.
Qed.

(** ** Facts about the conversions between [int] and [double] *)

Lemma int_signed_range (x : Z) :
  0 <= x < 2 ^ int_bits -> - 2 ^ 31 <= int_signed x < 2 ^ 31.
Proof.
  intros Hx. unfold int_signed, int_bits in *.
  change (32 - 1) with 31.
  destruct (Z.testbit x 31) eqn:Hb.
  - apply Z.testbit_true in Hb; [|lia].
    assert (x / 2 ^ 31 <> 0) by (intros E; rewrite E in Hb; discriminate Hb).
    assert (0 <= x / 2 ^ 31) by (apply Z.div_pos; lia).
    assert (2 ^ 31 * (x / 2 ^ 31) <= x) by (apply Z.mul_div_le; lia).
    lia.
  - apply Z.testbit_false in Hb; [|lia].
    assert (Hq : x / 2 ^ 31 < 2) by (apply Z.div_lt_upper_bound; lia).
    assert (0 <= x / 2 ^ 31) by (apply Z.div_pos; lia).
    assert (Hz : x / 2 ^ 31 = 0).
    { destruct (Z.eq_dec (x / 2 ^ 31) 0) as [E|E]; [exact E|].
      assert (E1 : x / 2 ^ 31 = 1) by lia. rewrite E1 in Hb. discriminate Hb. }
    apply Z.div_small_iff in Hz; lia.
Qed.

(** The three fields of a binary64 pattern built from them. *)
Lemma binary64_fields (s e f : Z) :
  (s = 0 \/ s = 1) -> 0 < e < 2 ^ 11 -> 0 <= f < 2 ^ 52 ->
  let b := s * 2 ^ 63 + e * 2 ^ 52 + f in
  (b / 2 ^ 52) mod 2 ^ 11 = e /\ b mod 2 ^ 52 = f /\ b / 2 ^ 63 = s.
Proof.
  intros Hs He Hf b. subst b.
  assert (Hq : (s * 2 ^ 63 + e * 2 ^ 52 + f) / 2 ^ 52 = s * 2 ^ 11 + e).
  { symmetry. apply (Z.div_unique _ _ _ f); lia. }
  rewrite Hq. split; [|split].
  - symmetry. apply (Z.mod_unique _ _ s); lia.
  - symmetry. apply (Z.mod_unique _ _ (s * 2 ^ 11 + e)); lia.
  - symmetry. apply (Z.div_unique _ _ _ (e * 2 ^ 52 + f)); lia.
Qed.

(** The pattern of a nonzero [int] converted to [double]: its sign, its
    exponent and its fraction. *)
Lemma double_of_int_fields (x : Z) :
  0 <= x < 2 ^ int_bits -> int_signed x <> 0 ->
  exists s e f,
    (s = 0 /\ 0 < int_signed x \/ s = 1 /\ int_signed x < 0) /\
    0 <= e <= 31 /\ 0 <= f < 2 ^ 52 /\
    2 ^ 52 + f = Z.abs (int_signed x) * 2 ^ (52 - e) /\
    double_of_int x = s * 2 ^ 63 + (e + 1023) * 2 ^ 52 + f.
Proof.
  intros Hx Hnz. pose proof (int_signed_range x Hx) as Hn.
  unfold double_of_int. set (n := int_signed x) in *.
  destruct (Z.eqb_spec n 0) as [E|_]; [contradiction|].
  set (a := Z.abs n). set (e := Z.log2 a).
  assert (Ha : 1 <= a <= 2 ^ 31) by (unfold a; lia).
  assert (He : 0 <= e <= 31).
  { split; [apply Z.log2_nonneg|].
    change 31 with (Z.log2 (2 ^ 31)). apply Z.log2_le_mono. lia. }
  destruct (Z.log2_spec a) as [Hlo Hhi]; [lia|]. fold e in Hlo, Hhi.
  assert (Hk : 2 ^ e * 2 ^ (52 - e) = 2 ^ 52).
  { rewrite <- Z.pow_add_r by lia. f_equal. lia. }
  rewrite Z.pow_succ_r in Hhi by lia.
  assert (HK : 0 < 2 ^ e) by (apply Z.pow_pos_nonneg; lia).
  assert (Hk0 : 0 < 2 ^ (52 - e)) by (apply Z.pow_pos_nonneg; lia).
  assert (Hf : 0 <= a * 2 ^ (52 - e) - 2 ^ 52 < 2 ^ 52) by nia.
  exists (if n <? 0 then 1 else 0), e, (a * 2 ^ (52 - e) - 2 ^ 52).
  split; [destruct (Z.ltb_spec n 0); lia|].
  split; [exact He|]. split; [exact Hf|]. split; [lia|].
  destruct (n <? 0); lia.
Qed.

(** An [int] converted to [double] is a pattern of [double_bits] bits. *)
Lemma double_of_int_range (x : Z) :
  0 <= x < 2 ^ int_bits -> 0 <= double_of_int x < 2 ^ double_bits.
Proof.
  intros Hx. destruct (Z.eq_dec (int_signed x) 0) as [E|E].
  - unfold double_of_int. rewrite E. cbn. lia.
  - destruct (double_of_int_fields x Hx E) as (s & e & f & Hs & He & Hf & _ & ->).
    unfold double_bits. lia.
Qed.

(** No [int] is changed by the conversion to [double] and back. *)
Lemma double_of_int_round_trip (x : Z) :
  0 <= x < 2 ^ int_bits -> int_of_double (double_of_int x) = int_signed x.
Proof.
  intros Hx. destruct (Z.eq_dec (int_signed x) 0) as [E|E].
  - unfold double_of_int. rewrite E. reflexivity.
  - destruct (double_of_int_fields x Hx E)
      as (s & e & f & Hs & He & Hf & Hm & ->).
    destruct (binary64_fields s (e + 1023) f) as (E1 & E2 & E3); [lia..|].
    unfold int_of_double. rewrite E1, E2, E3.
    destruct (Z.eqb_spec (e + 1023) 0) as [|_]; [lia|].
    rewrite Hm.
    replace (e + 1023 - 1075) with (- (52 - e)) by lia.
    rewrite Z.shiftl_opp_r, Z.shiftr_div_pow2, Z.div_mul
      by (try apply Z.pow_nonzero; lia).
    destruct Hs as [[-> Hpos]|[-> Hneg]]; cbn [Z.eqb]; lia.
Qed.

End CastFacts.

(** ** The declarations and the definitions agree *)

Section Elaboration.
Import CSyntax.

Lemma elaborate_declarations (h : header) (w : Z) :
  elaborate w [] (declarations_of h)
  = Some [ ("SQUEAL_STATIC"%string, Vptr (static_of h w));
           ("SQUEAL_TRANSIENT"%string, Vptr (transient_of h w)) ].
Proof. destruct h; reflexivity. Qed.

Lemma bridge_of_declarations (h : header) (w : Z) :
  bridge_of w (declarations_of h)
  = {| br_typedef := Some (Tpointer (Tfunction (Tpointer Tvoid) Tvoid));
       br_static := Some (Vptr (static_of h w));
       br_transient := Some (Vptr (transient_of h w)) |}.
Proof.
  unfold bridge_of. rewrite elaborate_declarations.
  destruct h; reflexivity.
Qed.

End Elaboration.

(** ** Runs of a process *)

Section Runs.
Import CSyntax Process.

Lemma store_sentinel (m : memory) (o : object) (v : cval) :
  is_sentinel o = true -> store m o v = None.
Proof. destruct o; intros H; try discriminate H; reflexivity. Qed.

Lemma store_some_inv (m m' : memory) (o : object) (v : cval) :
  store m o v = Some m' ->
  o = VersionNumber /\ exists b, m' = set_VersionNumber m b.
Proof.
  unfold store. destruct (is_const o) eqn:Hc; [discriminate|].
  destruct o; try discriminate Hc. destruct v as [x|a|b|bs]; try discriminate.
  - intros H. injection H as <-. split; [reflexivity|]. eexists. reflexivity.
  - destruct ((0 <=? b) && (b <? 2 ^ CInt.double_bits)); [|discriminate].
    intros H. injection H as <-. split; [reflexivity|]. exists b. reflexivity.
Qed.

Lemma store_frame (m m' : memory) (o : object) (v : cval) :
  store m o v = Some m' ->
  mem_STATIC m' = mem_STATIC m /\ mem_TRANSIENT m' = mem_TRANSIENT m.
Proof.
  intros H. destruct (store_some_inv _ _ _ _ H) as (_ & b & ->).
  split; reflexivity.
Qed.

(** An accepted store is to an object declared without [const]. *)
Lemma store_not_const (m m' : memory) (o : object) (v : cval) :
  store m o v = Some m' -> is_const o = false.
Proof.
  intros H. destruct (store_some_inv _ _ _ _ H) as (-> & _). reflexivity.
Qed.

Lemma step_frame (m m' : memory) (a : access) (r : list (object * cval)) :
  step m a = Some (m', r) ->
  mem_STATIC m' = mem_STATIC m /\ mem_TRANSIENT m' = mem_TRANSIENT m.
Proof.
  destruct a as [o|o v]; cbn [step].
  - intros H. injection H as <- _. split; reflexivity.
  - destruct (store m o v) as [m1|] eqn:Hst; [|discriminate].
    intros H. injection H as <- _. exact (store_frame _ _ _ _ Hst).
Qed.

Lemma step_reads (m m' : memory) (a : access) (r : list (object * cval)) :
  step m a = Some (m', r) ->
  forall o v, In (o, v) r -> v = load m o.
Proof.
  destruct a as [o'|o' v']; cbn [step].
  - intros H. injection H as _ <-. intros o v [Heq|[]].
    injection Heq as <- <-. reflexivity.
  - destruct (store m o' v'); [|discriminate].
    intros H. injection H as _ <-. intros o v [].
Qed.

Lemma load_sentinel (m1 m2 : memory) (o : object) :
  is_sentinel o = true ->
  mem_STATIC m1 = mem_STATIC m2 -> mem_TRANSIENT m1 = mem_TRANSIENT m2 ->
  load m1 o = load m2 o.
Proof.
  destruct o; intros H HS HT; try discriminate H; cbn [load]; congruence.
Qed.

(** The invariant of a run: the two sentinels keep their values, and every
    read of one returns the value it had at the start. *)
Lemma run_invariant (p : list access) :
  forall (m m' : memory) (rs : list (object * cval)),
    run m p = Some (m', rs) ->
    mem_STATIC m' = mem_STATIC m /\ mem_TRANSIENT m' = mem_TRANSIENT m /\
    forall o v, is_sentinel o = true -> In (o, v) rs -> v = load m o.
Proof.
  induction p as [|a p IH]; intros m m' rs; cbn [run].
  - intros H. injection H as <- <-. repeat split. intros o v _ [].
  - destruct (step m a) as [[m1 r]|] eqn:Hstep; [|discriminate].
    destruct (run m1 p) as [[m2 rs2]|] eqn:Hrun; [|discriminate].
    intros H. injection H as <- <-.
    destruct (step_frame _ _ _ _ Hstep) as [HS1 HT1].
    destruct (IH _ _ _ Hrun) as (HS2 & HT2 & Hrd).
    split; [congruence|]. split; [congruence|].
    intros o v Ho Hin. apply in_app_or in Hin. destruct Hin as [Hin|Hin].
    + exact (step_reads _ _ _ _ Hstep _ _ Hin).
    + rewrite (Hrd _ _ Ho Hin). apply load_sentinel; assumption.
Qed.

Lemma sentinel_view_cons (r : list (object * cval))
  (res : option (memory * list (object * cval))) :
  sentinel_view match res with
                | None => None
                | Some (m2, rs) => Some (m2, r ++ rs)
                end
  = match sentinel_view res with
    | None => None
    | Some (s, t, rs) => Some (s, t, sentinel_reads r ++ rs)
    end.
Proof.
  destruct res as [[m2 rs]|]; cbn [sentinel_view]; [|reflexivity].
  unfold sentinel_reads. rewrite filter_app. reflexivity.
Qed.

Lemma sentinel_reads_load (m1 m2 : memory) (o : object) :
  mem_STATIC m1 = mem_STATIC m2 -> mem_TRANSIENT m1 = mem_TRANSIENT m2 ->
  sentinel_reads [(o, load m1 o)] = sentinel_reads [(o, load m2 o)].
Proof.
  intros HS HT. destruct o; cbn; congruence.
Qed.

(** Whether a store is accepted does not depend on the memory. *)
Lemma store_accepts (m1 m2 : memory) (o : object) (v : cval) :
  match store m1 o v, store m2 o v with
  | Some _, Some _ | None, None => True
  | _, _ => False
  end.
Proof.
  unfold store. destruct (is_const o); [exact I|].
  destruct o; try exact I. destruct v as [x|a|b|bs]; try exact I.
  destruct ((0 <=? b) && (b <? 2 ^ CInt.double_bits)); exact I.
Qed.

(** Two runs of one program from memories that agree on the sentinels show
    the same of them. *)
Lemma run_sentinel_view (p : list access) :
  forall m1 m2 : memory,
    mem_STATIC m1 = mem_STATIC m2 -> mem_TRANSIENT m1 = mem_TRANSIENT m2 ->
    sentinel_view (run m1 p) = sentinel_view (run m2 p).
Proof.
  induction p as [|a p IH]; intros m1 m2 HS HT; cbn [run].
  - cbn. congruence.
  - destruct a as [o|o v]; cbn [step].
    + rewrite !sentinel_view_cons, (IH m1 m2 HS HT).
      rewrite (sentinel_reads_load m1 m2 o HS HT). reflexivity.
    + pose proof (store_accepts m1 m2 o v) as Hacc.
      destruct (store m1 o v) as [m1'|] eqn:H1,
               (store m2 o v) as [m2'|] eqn:H2;
        try contradiction; [|reflexivity].
      destruct (store_frame _ _ _ _ H1) as [HS1 HT1].
      destruct (store_frame _ _ _ _ H2) as [HS2 HT2].
      rewrite !sentinel_view_cons.
      rewrite (IH m1' m2') by congruence. reflexivity.
Qed.

(** A run of loads alone succeeds, and leaves memory as it was. *)
Lemma run_loads (m : memory) (os : list object) :
  run m (map Load os) = Some (m, map (fun o => (o, load m o)) os).
Proof.
  induction os as [|o os IH]; cbn [map run step]; [reflexivity|].
  rewrite IH. reflexivity.
Qed.

(** Runs compose: the accesses of [q] start from the memory [p] left. *)
Lemma run_app (p q : list access) :
  forall m : memory,
    run m (p ++ q)
    = match run m p with
      | None => None
      | Some (m1, r1) =>
          match run m1 q with
          | None => None
          | Some (m2, r2) => Some (m2, r1 ++ r2)
          end
      end.
Proof.
  induction p as [|a p IH]; intros m; cbn [app run].
  - destruct (run m q) as [[m2 r2]|]; reflexivity.
  - destruct (step m a) as [[m1 r]|]; [|reflexivity].
    rewrite IH. destruct (run m1 p) as [[m2 r2]|]; [|reflexivity].
    destruct (run m2 q) as [[m3 r3]|]; [|reflexivity].
    rewrite app_assoc. reflexivity.
Qed.

(** The version string is kept by every run, and read as it was. *)
Lemma run_version_string (p : list access) :
  forall (m m' : memory) (rs : list (object * cval)),
    run m p = Some (m', rs) ->
    mem_VersionString m' = mem_VersionString m /\
    forall v, In (VersionString, v) rs -> v = Vbytes (mem_VersionString m).
Proof.
  induction p as [|a p IH]; intros m m' rs; cbn [run].
  - intros H. injection H as <- <-. split; [reflexivity|intros v []].
  - destruct (step m a) as [[m1 r]|] eqn:Hstep; [|discriminate].
    destruct (run m1 p) as [[m2 rs2]|] eqn:Hrun; [|discriminate].
    intros H. injection H as <- <-.
    destruct (IH _ _ _ Hrun) as [Hvs Hrd].
    assert (Hm1 : mem_VersionString m1 = mem_VersionString m).
    { destruct a as [o|o v]; cbn [step] in Hstep.
      - injection Hstep as <- _. reflexivity.
      - destruct (store m o v) as [m0|] eqn:Hst; [|discriminate].
        injection Hstep as <- _.
        destruct (store_some_inv _ _ _ _ Hst) as (_ & b & ->).
        reflexivity. }
    split; [congruence|].
    intros v Hin. apply in_app_or in Hin. destruct Hin as [Hin|Hin].
    + exact (step_reads _ _ _ _ Hstep _ _ Hin).
    + rewrite (Hrd _ Hin), Hm1. reflexivity.
Qed.

(** The qualifiers of [is_const] are those the header declares. *)
Lemma is_const_declared (h : header) (o : object) :
  option_map declared_const
    (declared_type (object_name h o) (declarations_of h))
  = Some (is_const o).
Proof. destruct h, o; reflexivity. Qed.

(** A header defines the two sentinels, with the values of its
    initialisers, and only declares the version symbols. *)
Lemma defined_value_eq (h : header) (w : Z) (vn : Z)
  (vs : list Byte.byte) (o : object) :
  defined_value h w o
  = if is_sentinel o then Some (load (initial_memory h w vn vs) o) else None.
Proof.
  unfold defined_value. rewrite elaborate_declarations.
  destruct h, o; reflexivity.
Qed.

End Runs.

(** ** Executions of several threads *)

Section ThreadRuns.
Import CSyntax Process Threads.

(** An execution is a run of its accesses, whichever thread makes each. *)
Lemma run_threads_run (e : execution) :
  forall (m m' : memory) (rs : list (thread * object * cval)),
    run_threads m e = Some (m', rs) ->
    run m (map snd e)
    = Some (m', map (fun x => (snd (fst x), snd x)) rs).
Proof.
  induction e as [|[t a] e IH]; intros m m' rs; cbn [run_threads map snd run].
  - intros H. injection H as <- <-. reflexivity.
  - destruct (step m a) as [[m1 r]|]; [|discriminate].
    destruct (run_threads m1 e) as [[m2 rs2]|] eqn:He; [|discriminate].
    intros H. injection H as <- <-.
    rewrite (IH _ _ _ He), map_app, map_map. cbn [fst snd].
    f_equal. f_equal. f_equal.
    induction r as [|[o v] r IHr]; cbn [map fst snd]; [reflexivity|].
    f_equal. exact IHr.
Qed.

(** A run that reaches its end has stored to no [const] object. *)
Lemma run_no_const_store (p : list access) :
  forall (m m' : memory) (rs : list (object * cval)),
    run m p = Some (m', rs) ->
    forall a, In a p -> is_write a = true -> is_const (target a) = false.
Proof.
  induction p as [|a0 p IH]; intros m m' rs; cbn [run]; [intros _ a []|].
  destruct (step m a0) as [[m1 r]|] eqn:Hstep; [|discriminate].
  destruct (run m1 p) as [[m2 rs2]|] eqn:Hrun; [|discriminate].
  intros _ a [<-|Hin] Hw.
  - destruct a0 as [o|o v]; [discriminate Hw|]. cbn [step] in Hstep.
    destruct (store m o v) as [m0|] eqn:Hst; [|discriminate].
    exact (store_not_const _ _ _ _ Hst).
  - exact (IH _ _ _ Hrun a Hin Hw).
Qed.

Lemma sentinel_is_const (o : object) :
  is_sentinel o = true -> is_const o = true.
Proof. destruct o; intros H; try discriminate H; reflexivity. Qed.

(** The race predicate is not empty: two threads can race on the version
    number, the one object declared without [const]. *)
Lemma version_number_can_race (m : memory) :
  run_threads m [ (0%nat, Store VersionNumber (Vdouble 0));
                  (1%nat, Load VersionNumber) ]
  = Some (set_VersionNumber m 0, [(1%nat, VersionNumber, Vdouble 0)]) /\
  data_race_on VersionNumber
    [ (0%nat, Store VersionNumber (Vdouble 0));
      (1%nat, Load VersionNumber) ].
Proof.
  split; [reflexivity|].
  exists 0%nat, (Store VersionNumber (Vdouble 0)), 1%nat, (Load VersionNumber).
  split; [left; reflexivity|]. split; [right; left; reflexivity|].
  split; [discriminate|]. split; [reflexivity|].
  split; [reflexivity|left; reflexivity].
Qed.

End ThreadRuns.

(** ** The sentinel contract *)

(** C1: for either header and every pointer width, [SQUEAL_STATIC] is the
    value [0] cast to the destructor type, and its bit pattern is zero:
    the address is [0], so none of its bits is set. *)
Theorem static_bit_pattern_zero (h : header) (w : Z) :
  static_of h w = CInt.int_to_ptr w (CInt.int_const 0) /\
  static_of h w = 0 /\
  forall i : Z, Z.testbit (static_of h w) i = false.
Proof.
  split; [destruct h; reflexivity|].
  split; [apply static_of_eq|].
  intros i. rewrite static_of_eq. apply Z.testbit_0_l.
Qed.

(** C2: for either header and every pointer width [w], [SQUEAL_TRANSIENT] is
    the value [-1] cast to the destructor type; read as an unsigned integer
    of [w] bits it is [2 ^ w - 1], that is [-1] modulo [2 ^ w], and each of
    its [w] bits is set. *)
Theorem transient_bit_pattern_all_ones (h : header) (w : Z) :
  0 < w ->
  CInt.int_signed (CInt.int_neg (CInt.int_const 1)) = -1 /\
  transient_of h w = CInt.int_to_ptr w (CInt.int_neg (CInt.int_const 1)) /\
  transient_of h w = 2 ^ w - 1 /\
  transient_of h w = (-1) mod 2 ^ w /\
  forall i : Z, Z.testbit (transient_of h w) i = (0 <=? i) && (i <? w).
Proof.
  intros Hw.
  assert (Hp : 0 < 2 ^ w) by (apply Z.pow_pos_nonneg; lia).
  split; [reflexivity|].
  split; [destruct h; reflexivity|].
  rewrite transient_of_eq by lia.
  split; [rewrite Z.ones_equiv; lia|].
  split.
  - rewrite Z.ones_equiv, <- (Z.mod_add (-1) 1) by lia.
    rewrite Z.mod_small; lia.
  - intros i.
    destruct (Z.leb_spec 0 i) as [Hi|Hi]; [|apply Z.testbit_neg_r; exact Hi].
    destruct (Z.ltb_spec i w) as [Hlt|Hge].
    + apply Z.ones_spec_low. lia.
    + apply Z.ones_spec_high. lia.
Qed.

Lemma transient_bit_pattern_all_ones_witness :
  0 < 64 /\ transient_of Squeal_iOS_h 64 = 2 ^ 64 - 1.
Proof.
  split; [lia|].
  apply (transient_bit_pattern_all_ones Squeal_iOS_h 64). lia.
Defined.

(** C3: on every pointer width, [SQUEAL_STATIC] and [SQUEAL_TRANSIENT] are
    different addresses, whichever header each one is read from, and the
    pointer comparison tells them apart. *)
Theorem static_transient_distinct (h1 h2 : header) (w : Z) :
  0 < w ->
  static_of h1 w <> transient_of h2 w /\
  CInt.ptr_eqb (static_of h1 w) (transient_of h2 w) = false.
Proof.
  intros Hw.
  assert (Hne : static_of h1 w <> transient_of h2 w).
  { rewrite static_of_eq, transient_of_eq, Z.ones_equiv by lia.
    assert (1 < 2 ^ w) by (apply Z.pow_gt_1; lia). lia. }
  split; [exact Hne|].
  unfold CInt.ptr_eqb. apply Z.eqb_neq. exact Hne.
Qed.

Lemma static_transient_distinct_witness :
  0 < 32 /\ static_of Squeal_h 32 <> transient_of Squeal_h 32.
Proof.
  split; [lia|].
  apply (static_transient_distinct Squeal_h Squeal_h 32). lia.
Defined.

(** C10: [SQUEAL_STATIC] is the null pointer of its type: comparing it with
    the null pointer yields true, on every pointer width. *)
Theorem static_is_null_pointer (h : header) (w : Z) :
  static_of h w = CInt.null_pointer /\
  CInt.ptr_eqb (static_of h w) CInt.null_pointer = true.
Proof.
  rewrite static_of_eq. split; reflexivity.
Qed.

(** C5: the two headers give the same bridge: the same typedef, a pointer
    to a function from [void*] to [void], and equal values of both
    constants on every pointer width, so whatever holds of the constants of
    one header holds of those of the other. *)
Theorem headers_equivalent (w : Z) :
  bridge_of w Squeal.declarations = bridge_of w Squeal_iOS.declarations /\
  br_typedef (bridge_of w Squeal.declarations)
  = Some (CSyntax.Tpointer
            (CSyntax.Tfunction (CSyntax.Tpointer CSyntax.Tvoid) CSyntax.Tvoid)) /\
  Squeal.squeal_destructor_type = Squeal_iOS.squeal_destructor_type /\
  Squeal.SQUEAL_STATIC w = Squeal_iOS.SQUEAL_STATIC w /\
  Squeal.SQUEAL_TRANSIENT w = Squeal_iOS.SQUEAL_TRANSIENT w /\
  forall contract : Z -> Z -> Prop,
    contract (Squeal.SQUEAL_STATIC w) (Squeal.SQUEAL_TRANSIENT w) <->
    contract (Squeal_iOS.SQUEAL_STATIC w) (Squeal_iOS.SQUEAL_TRANSIENT w).
Proof.
  pose proof (bridge_of_declarations Squeal_h w) as Hmac.
  pose proof (bridge_of_declarations Squeal_iOS_h w) as Hios.
  cbn [declarations_of] in Hmac, Hios.
  split; [rewrite Hmac, Hios; reflexivity|].
  split; [rewrite Hmac; reflexivity|].
  repeat split; intros H; exact H.
Qed.

(** C7: neither header calls through a sentinel: no declaration of a header
    contains a call expression or mentions an identifier in an initialiser,
    and both initialisers are constant expressions, evaluated without
    running any code. *)
Theorem sentinels_never_called (h : header) :
  CSyntax.header_calls (declarations_of h) = [] /\
  flat_map CSyntax.decl_mentions (declarations_of h) = [] /\
  forall w : Z,
    CSyntax.elaborate w [] (declarations_of h)
    = Some [ ("SQUEAL_STATIC"%string, CSyntax.Vptr (static_of h w));
             ("SQUEAL_TRANSIENT"%string, CSyntax.Vptr (transient_of h w)) ].
Proof.
  split; [destruct h; reflexivity|].
  split; [destruct h; reflexivity|].
  intros w. apply elaborate_declarations.
Qed.

(** ** The constants in a running process *)

(** C4: in a process that has loaded either header, whatever accesses it
    makes, every two reads of one sentinel yield the same value, the value
    of its initialiser; the sentinels hold that value at the end, and no
    store to a sentinel is accepted. *)
Theorem sentinels_immutable (h : header) (w : Z)
  (vn : Z) (vs : list Byte.byte) (p : list Process.access)
  (m' : Process.memory) (rs : list (Process.object * CSyntax.cval)) :
  Process.run (Process.initial_memory h w vn vs) p = Some (m', rs) ->
  Process.reads_agree rs /\
  (forall v, In (Process.STATIC, v) rs -> v = CSyntax.Vptr (static_of h w)) /\
  (forall v, In (Process.TRANSIENT, v) rs ->
             v = CSyntax.Vptr (transient_of h w)) /\
  Process.mem_STATIC m' = static_of h w /\
  Process.mem_TRANSIENT m' = transient_of h w /\
  forall v, Process.store m' Process.STATIC v = None /\
            Process.store m' Process.TRANSIENT v = None.
Proof.
  intros Hrun.
  destruct (run_invariant _ _ _ _ Hrun) as (HS & HT & Hrd).
  split.
  { intros o v1 v2 Ho H1 H2.
    rewrite (Hrd _ _ Ho H1), (Hrd _ _ Ho H2). reflexivity. }
  split; [intros v Hin; exact (Hrd Process.STATIC v eq_refl Hin)|].
  split; [intros v Hin; exact (Hrd Process.TRANSIENT v eq_refl Hin)|].
  split; [exact HS|]. split; [exact HT|].
  intros v. split; apply store_sentinel; reflexivity.
Qed.

Lemma sentinels_immutable_witness :
  Process.run (Process.initial_memory Squeal_h 64 1 [])
    [ Process.Load Process.STATIC;
      Process.Store Process.VersionNumber (CSyntax.Vdouble 7);
      Process.Load Process.TRANSIENT;
      Process.Load Process.VersionNumber;
      Process.Load Process.STATIC ]
  = Some (Process.Build_memory 7 [] 0 18446744073709551615,
          [ (Process.STATIC, CSyntax.Vptr 0);
            (Process.TRANSIENT, CSyntax.Vptr 18446744073709551615);
            (Process.VersionNumber, CSyntax.Vdouble 7);
            (Process.STATIC, CSyntax.Vptr 0) ]) /\
  Process.reads_agree
    [ (Process.STATIC, CSyntax.Vptr 0);
      (Process.TRANSIENT, CSyntax.Vptr 18446744073709551615);
      (Process.VersionNumber, CSyntax.Vdouble 7);
      (Process.STATIC, CSyntax.Vptr 0) ].
Proof.
  split; [reflexivity|].
  apply (sentinels_immutable Squeal_h 64 1 []
           [ Process.Load Process.STATIC;
             Process.Store Process.VersionNumber (CSyntax.Vdouble 7);
             Process.Load Process.TRANSIENT;
             Process.Load Process.VersionNumber;
             Process.Load Process.STATIC ]
           (Process.Build_memory 7 [] 0 18446744073709551615)).
  reflexivity.
Defined.

(** C6: a read of a sentinel cannot fail and changes nothing.  On every
    pointer width the header gives the sentinel a value, its initialiser
    being a constant expression; at any point of a process that has loaded
    the header the read returns that value and the memory as it was; and a
    program with the read put in anywhere runs as the program without it:
    it is accepted or not as before, ends in the same memory, and its reads
    are the same ones with the read of the sentinel added. *)
Theorem sentinel_read_cannot_fail_or_change_state (h : header) (w : Z)
  (vn : Z) (vs : list Byte.byte) (p q : list Process.access)
  (m1 : Process.memory) (rs1 : list (Process.object * CSyntax.cval))
  (o : Process.object) :
  Process.is_sentinel o = true ->
  Process.run (Process.initial_memory h w vn vs) p = Some (m1, rs1) ->
  Process.defined_value h w o
  = Some (Process.load (Process.initial_memory h w vn vs) o) /\
  Process.step m1 (Process.Load o)
  = Some (m1, [(o, Process.load (Process.initial_memory h w vn vs) o)]) /\
  Process.run (Process.initial_memory h w vn vs) (p ++ q)
  = match Process.run m1 q with
    | Some (m2, rs2) => Some (m2, rs1 ++ rs2)
    | None => None
    end /\
  Process.run (Process.initial_memory h w vn vs) (p ++ Process.Load o :: q)
  = match Process.run m1 q with
    | Some (m2, rs2) =>
        Some (m2, rs1 ++
                  (o, Process.load (Process.initial_memory h w vn vs) o)
                  :: rs2)
    | None => None
    end.
Proof.
  intros Ho Hrun.
  destruct (run_invariant _ _ _ _ Hrun) as (HS & HT & _).
  assert (Hload : Process.load m1 o
                  = Process.load (Process.initial_memory h w vn vs) o)
    by (apply load_sentinel; assumption).
  split; [rewrite (defined_value_eq h w vn vs o), Ho; reflexivity|].
  split; [cbn [Process.step]; rewrite Hload; reflexivity|].
  split.
  - rewrite run_app, Hrun. reflexivity.
  - rewrite run_app, Hrun. cbn [Process.run Process.step]. rewrite Hload.
    destruct (Process.run m1 q) as [[m2 rs2]|]; reflexivity.
Qed.

Lemma sentinel_read_cannot_fail_or_change_state_witness :
  Process.is_sentinel Process.STATIC = true /\
  Process.run (Process.initial_memory Squeal_iOS_h 32 1 [])
    [Process.Store Process.VersionNumber (CSyntax.Vdouble 5)]
  = Some (Process.Build_memory 5 [] 0 4294967295, []) /\
  Process.run (Process.initial_memory Squeal_iOS_h 32 1 [])
    ([Process.Store Process.VersionNumber (CSyntax.Vdouble 5)] ++
     Process.Load Process.STATIC :: [Process.Load Process.VersionNumber])
  = Some (Process.Build_memory 5 [] 0 4294967295,
          [ (Process.STATIC, CSyntax.Vptr 0);
            (Process.VersionNumber, CSyntax.Vdouble 5) ]).
Proof.
  split; [reflexivity|]. split; [reflexivity|].
  destruct (sentinel_read_cannot_fail_or_change_state
              Squeal_iOS_h 32 1 []
              [Process.Store Process.VersionNumber (CSyntax.Vdouble 5)]
              [Process.Load Process.VersionNumber]
              (Process.Build_memory 5 [] 0 4294967295) []
              Process.STATIC eq_refl eq_refl) as (_ & _ & _ & H).
  exact H.
Defined.

(** C8: the sentinels can be read from any number of threads without
    synchronisation.  In every execution of a process that has loaded
    either header, whatever the threads and the order of their accesses,
    no thread stores to a sentinel, so no two threads race on one, and
    every read of a sentinel by any thread returns the value of its
    initialiser, which the sentinel still holds at the end. *)
Theorem sentinels_thread_safe (h : header) (w : Z)
  (vn : Z) (vs : list Byte.byte) (e : Threads.execution)
  (m' : Process.memory)
  (rs : list (Threads.thread * Process.object * CSyntax.cval)) :
  Threads.run_threads (Process.initial_memory h w vn vs) e = Some (m', rs) ->
  (forall o, Process.is_sentinel o = true -> ~ Threads.data_race_on o e) /\
  (forall t a, In (t, a) e ->
               Process.is_sentinel (Threads.target a) = true ->
               Threads.is_write a = false) /\
  (forall t o v, Process.is_sentinel o = true -> In (t, o, v) rs ->
                 v = Process.load (Process.initial_memory h w vn vs) o) /\
  Process.mem_STATIC m' = static_of h w /\
  Process.mem_TRANSIENT m' = transient_of h w.
Proof.
  intros He. pose proof (run_threads_run _ _ _ _ He) as Hrun.
  destruct (run_invariant _ _ _ _ Hrun) as (HS & HT & Hrd).
  assert (Hnw : forall t a, In (t, a) e ->
                  Process.is_sentinel (Threads.target a) = true ->
                  Threads.is_write a = false).
  { intros t a Hin Hs.
    destruct (Threads.is_write a) eqn:Hw; [|reflexivity].
    assert (Hina : In a (map snd e)) by (apply (in_map snd _ _ Hin)).
    pose proof (run_no_const_store _ _ _ _ Hrun a Hina Hw) as Hc.
    rewrite (sentinel_is_const _ Hs) in Hc. discriminate Hc. }
  split; [|split; [exact Hnw|]].
  - intros o Ho (t1 & a1 & t2 & a2 & H1 & H2 & _ & Ht & Hsame & Hw).
    subst o. destruct Hw as [Hw|Hw].
    + rewrite (Hnw _ _ H1 Ho) in Hw. discriminate Hw.
    + rewrite Hsame in Ho. rewrite (Hnw _ _ H2 Ho) in Hw. discriminate Hw.
  - split; [|split; [exact HS|exact HT]].
    intros t o v Ho Hin. apply (Hrd o v Ho).
    apply (in_map (fun x => (snd (fst x), snd x)) _ _ Hin).
Qed.

Lemma sentinels_thread_safe_witness :
  Threads.run_threads (Process.initial_memory Squeal_h 64 1 [])
    [ (0%nat, Process.Load Process.STATIC);
      (1%nat, Process.Store Process.VersionNumber (CSyntax.Vint 3));
      (1%nat, Process.Load Process.TRANSIENT);
      (2%nat, Process.Load Process.STATIC);
      (0%nat, Process.Load Process.VersionNumber) ]
  = Some (Process.Build_memory 4613937818241073152 [] 0 18446744073709551615,
          [ (0%nat, Process.STATIC, CSyntax.Vptr 0);
            (1%nat, Process.TRANSIENT, CSyntax.Vptr 18446744073709551615);
            (2%nat, Process.STATIC, CSyntax.Vptr 0);
            (0%nat, Process.VersionNumber,
             CSyntax.Vdouble 4613937818241073152) ]) /\
  ~ Threads.data_race_on Process.STATIC
      [ (0%nat, Process.Load Process.STATIC);
        (1%nat, Process.Store Process.VersionNumber (CSyntax.Vint 3));
        (1%nat, Process.Load Process.TRANSIENT);
        (2%nat, Process.Load Process.STATIC);
        (0%nat, Process.Load Process.VersionNumber) ].
Proof.
  split; [reflexivity|].
  destruct (sentinels_thread_safe Squeal_h 64 1 []
              [ (0%nat, Process.Load Process.STATIC);
                (1%nat, Process.Store Process.VersionNumber (CSyntax.Vint 3));
                (1%nat, Process.Load Process.TRANSIENT);
                (2%nat, Process.Load Process.STATIC);
                (0%nat, Process.Load Process.VersionNumber) ]
              (Process.Build_memory 4613937818241073152 []
                 0 18446744073709551615)
              [ (0%nat, Process.STATIC, CSyntax.Vptr 0);
                (1%nat, Process.TRANSIENT,
                 CSyntax.Vptr 18446744073709551615);
                (2%nat, Process.STATIC, CSyntax.Vptr 0);
                (0%nat, Process.VersionNumber,
                 CSyntax.Vdouble 4613937818241073152) ]
              eq_refl) as (H & _).
  exact (H Process.STATIC eq_refl).
Defined.

(** C9: the version symbols do not reach the sentinels: the initialisers
    mention no identifier, and one program run with any two version numbers
    and version strings shows the same values and the same reads of
    [SQUEAL_STATIC] and [SQUEAL_TRANSIENT], stores to the version number
    included. *)
Theorem sentinels_independent_of_version (h : header) (w : Z)
  (vn vn' : Z) (vs vs' : list Byte.byte) (p : list Process.access) :
  flat_map CSyntax.decl_mentions (declarations_of h) = [] /\
  Process.mem_STATIC (Process.initial_memory h w vn vs)
  = Process.mem_STATIC (Process.initial_memory h w vn' vs') /\
  Process.mem_TRANSIENT (Process.initial_memory h w vn vs)
  = Process.mem_TRANSIENT (Process.initial_memory h w vn' vs') /\
  Process.sentinel_view (Process.run (Process.initial_memory h w vn vs) p)
  = Process.sentinel_view (Process.run (Process.initial_memory h w vn' vs') p).
Proof.
  split; [destruct h; reflexivity|].
  split; [reflexivity|]. split; [reflexivity|].
  apply run_sentinel_view; reflexivity.
Qed.

(** ** More on the two sentinels *)

(** X1: on every pointer width [SQUEAL_TRANSIENT] is not the null pointer,
    so a null test on a destructor argument is true of [SQUEAL_STATIC] and
    false of [SQUEAL_TRANSIENT]. *)
Theorem transient_is_not_null (h : header) (w : Z) :
  0 < w ->
  transient_of h w <> CInt.null_pointer /\
  CInt.ptr_eqb (transient_of h w) CInt.null_pointer = false /\
  CInt.ptr_eqb (static_of h w) CInt.null_pointer = true.
Proof.
  intros Hw.
  assert (Hne : transient_of h w <> CInt.null_pointer).
  { rewrite transient_of_eq, Z.ones_equiv by lia. unfold CInt.null_pointer.
    assert (1 < 2 ^ w) by (apply Z.pow_gt_1; lia). lia. }
  split; [exact Hne|]. split.
  - unfold CInt.ptr_eqb. apply Z.eqb_neq. exact Hne.
  - rewrite static_of_eq. reflexivity.
Qed.

Lemma transient_is_not_null_witness :
  0 < 64 /\ transient_of Squeal_h 64 <> CInt.null_pointer.
Proof.
  split; [lia|].
  apply (transient_is_not_null Squeal_h 64). lia.
Defined.

(** X2: both sentinels are addresses of [w] bits, and they are the two ends
    of the address space: every address of [w] bits lies between
    [SQUEAL_STATIC] and [SQUEAL_TRANSIENT]. *)
Theorem sentinels_bound_address_space (h : header) (w p : Z) :
  0 < w -> 0 <= p < 2 ^ w ->
  0 <= static_of h w < 2 ^ w /\
  0 <= transient_of h w < 2 ^ w /\
  static_of h w <= p <= transient_of h w.
Proof.
  intros Hw Hp.
  rewrite static_of_eq, transient_of_eq, Z.ones_equiv by lia.
  lia.
Qed.

Lemma sentinels_bound_address_space_witness :
  0 < 32 /\ 0 <= 4096 < 2 ^ 32 /\
  static_of Squeal_iOS_h 32 <= 4096 <= transient_of Squeal_iOS_h 32.
Proof.
  split; [lia|]. split; [lia|].
  apply (sentinels_bound_address_space Squeal_iOS_h 32 4096); lia.
Defined.

(** X3: the number [SQUEAL_TRANSIENT] stands for depends on the pointer
    width and on nothing else: two targets have the same value exactly when
    their pointers have the same width, and the value for a narrower
    pointer is the low bits of the value for a wider one. *)
Theorem transient_identifies_width (h1 h2 : header) (w1 w2 : Z) :
  0 < w1 -> 0 < w2 ->
  (transient_of h1 w1 = transient_of h2 w2 <-> w1 = w2) /\
  (w1 <= w2 -> transient_of h2 w2 mod 2 ^ w1 = transient_of h1 w1).
Proof.
  intros H1 H2.
  rewrite !transient_of_eq by lia. split.
  - split.
    + rewrite !Z.ones_equiv. intros Heq.
      apply (Z.pow_inj_r 2); lia.
    + intros ->. reflexivity.
  - intros Hle. rewrite <- Z.land_ones by lia.
    apply Z.bits_inj'. intros i Hi. rewrite Z.land_spec.
    destruct (Z.ltb_spec i w1) as [Hlt|Hge].
    + rewrite !Z.ones_spec_low by lia. reflexivity.
    + rewrite (Z.ones_spec_high w1) by lia. apply andb_false_r.
Qed.

Lemma transient_identifies_width_witness :
  0 < 32 /\ 0 < 64 /\
  (transient_of Squeal_h 32 = transient_of Squeal_iOS_h 64 <-> 32 = 64).
Proof.
  split; [lia|]. split; [lia|].
  apply (transient_identifies_width Squeal_h Squeal_iOS_h 32 64); lia.
Defined.

(** X4: the cast an initialiser applies to its [int] keeps the number the
    [int] stands for, modulo [2 ^ w], and yields an address of [w] bits,
    whether it drops high bits or extends the sign. *)
Theorem cast_keeps_signed_value (w x : Z) :
  0 <= w -> 0 <= x < 2 ^ CInt.int_bits ->
  CInt.int_to_ptr w x = CInt.int_signed x mod 2 ^ w /\
  0 <= CInt.int_to_ptr w x < 2 ^ w.
Proof.
  intros Hw Hx.
  rewrite (int_to_ptr_signed w x Hw Hx).
  split; [reflexivity|].
  apply Z.mod_pos_bound. apply Z.pow_pos_nonneg; lia.
Qed.

Lemma cast_keeps_signed_value_witness :
  0 <= 64 /\ 0 <= 4294967294 < 2 ^ CInt.int_bits /\
  CInt.int_to_ptr 64 4294967294 = (-2) mod 2 ^ 64.
Proof.
  split; [lia|]. split; [unfold CInt.int_bits; lia|].
  apply (cast_keeps_signed_value 64 4294967294);
    unfold CInt.int_bits; lia.
Defined.

(** ** The version string in a running process *)

(** X7: the version string is immutable like the sentinels: whatever
    accesses a process makes, the string is at the end what it was at the
    start, and every read of it returns those bytes. *)
Theorem version_string_immutable (m m' : Process.memory)
  (p : list Process.access) (rs : list (Process.object * CSyntax.cval)) :
  Process.run m p = Some (m', rs) ->
  Process.mem_VersionString m' = Process.mem_VersionString m /\
  (forall v, In (Process.VersionString, v) rs ->
             v = CSyntax.Vbytes (Process.mem_VersionString m)) /\
  forall v, Process.store m' Process.VersionString v = None.
Proof.
  intros Hrun. destruct (run_version_string _ _ _ _ Hrun) as [Hvs Hrd].
  split; [exact Hvs|]. split; [exact Hrd|]. intros v. reflexivity.
Qed.

Lemma version_string_immutable_witness :
  Process.run (Process.initial_memory Squeal_iOS_h 32 1 [Byte.x40; Byte.x28])
    [ Process.Load Process.VersionString;
      Process.Store Process.VersionNumber (CSyntax.Vdouble 2);
      Process.Load Process.VersionString ]
  = Some (Process.Build_memory 2 [Byte.x40; Byte.x28] 0 4294967295,
          [ (Process.VersionString, CSyntax.Vbytes [Byte.x40; Byte.x28]);
            (Process.VersionString, CSyntax.Vbytes [Byte.x40; Byte.x28]) ]) /\
  Process.mem_VersionString
    (Process.Build_memory 2 [Byte.x40; Byte.x28] 0 4294967295)
  = [Byte.x40; Byte.x28].
Proof.
  split; [reflexivity|].
  apply (version_string_immutable
           (Process.initial_memory Squeal_iOS_h 32 1 [Byte.x40; Byte.x28])
           (Process.Build_memory 2 [Byte.x40; Byte.x28] 0 4294967295)
           [ Process.Load Process.VersionString;
             Process.Store Process.VersionNumber (CSyntax.Vdouble 2);
             Process.Load Process.VersionString ]
           [ (Process.VersionString, CSyntax.Vbytes [Byte.x40; Byte.x28]);
             (Process.VersionString, CSyntax.Vbytes [Byte.x40; Byte.x28]) ]).
  reflexivity.
Defined.
